(** * pySimulator/nodes.py: neurons and generators of the SNN simulator

    A shallow embedding of [src/pySimulator/nodes.py] and the properties of
    its three units: the leaky integrate-and-fire neuron [LIF], the replayed
    [SpikeTrain] and the [PoissonGenerator].

    Numbers.  Python numbers are modelled by the exact rationals [Q]: Python's
    [==], [<] and [>] are [Qeq], [Qlt] and their boolean tests, [+], [*], [/]
    are the rational operations.  Rounding, infinities and NaN of binary
    floating point are outside this model.

    Objects.  A unit is a record of its attributes.  A random generator
    ([np.random.RandomState]) is an object of its own: a unit holds a
    reference to it, and the generators live in a store that [step] reads and
    writes, so that two units may share one generator. *)

From Stdlib Require Import QArith ZArith PArith List Bool Lia Lqa.
Import ListNotations.

Local Open Scope Q_scope.

(** ** Python numbers *)

(** [a > b] on numbers. *)
Definition Qgtb (a b : Q) : bool := negb (Qle_bool a b).

(** [a < b] on numbers. *)
Definition Qltb (a b : Q) : bool := Qgtb b a.

(** The builtin [max(a, b)]: the first argument is kept unless the second
    is strictly greater. *)
Definition py_max (a b : Q) : Q := if Qgtb b a then b else a.

(** ** The numpy interface the units consume

    [RandomState] is the internal state of a generator; [rand] and [normal]
    return a draw and the advanced state; [log] is [np.log]. *)
Class numpy : Type := {
  RandomState : Type;
  rand : RandomState -> Q * RandomState;
  normal : Q -> RandomState -> Q * RandomState;
  log : Q -> Q
}.

(** ** The store of generator objects *)

Definition ref : Type := positive.

Definition heap `{numpy} : Type := ref -> RandomState.

Definition heap_set `{numpy} (h : heap) (r : ref) (g : RandomState) : heap :=
  fun r' => if Pos.eqb r' r then g else h r'.

(** The world a constructor runs in: the store and the next free reference.
    [np.random.RandomState()] takes the next free reference; the state found
    there stands for the seed the operating system supplies. *)
Record world `{numpy} : Type := World { objs : heap; next : ref }.

Definition new_RandomState `{numpy} (w : world) : ref * world :=
  (next w, World _ (objs w) (Pos.succ (next w))).

(** What the driver does to [I] between two steps: nothing, an assignment,
    or an addition on top of the current value. *)
Inductive write : Type :=
| Leave
| Assign (x : Q)
| Accumulate (x : Q).

Definition write_I (w : write) (I : Q) : Q :=
  match w with
  | Leave => I
  | Assign x => x
  | Accumulate x => I + x
  end.

(** ** class LIF *)
Module LIF.
Section WithNumpy.
Context `{np : numpy}.

Record t : Type := Build {
  I : Q;
  out : Q;
  amplitude : Q;
  m : Q;
  V : Q;
  V_reset : Q;
  V_rest : Q;
  thr : Q;
  I_e : Q;
  rng : ref;
  noise : Q
}.

Definition set_V (self : t) (x : Q) : t :=
  Build (I self) (out self) (amplitude self) (m self) x (V_reset self)
        (V_rest self) (thr self) (I_e self) (rng self) (noise self).

Definition set_I (self : t) (x : Q) : t :=
  Build x (out self) (amplitude self) (m self) (V self) (V_reset self)
        (V_rest self) (thr self) (I_e self) (rng self) (noise self).

Definition set_out (self : t) (x : Q) : t :=
  Build (I self) x (amplitude self) (m self) (V self) (V_reset self)
        (V_rest self) (thr self) (I_e self) (rng self) (noise self).

Definition set_rng (self : t) (r : ref) : t :=
  Build (I self) (out self) (amplitude self) (m self) (V self) (V_reset self)
        (V_rest self) (thr self) (I_e self) r (noise self).

(** [LIF.__init__]: [I] and [out] start at the class defaults 0; [rng] is the
    generator passed in, or a new one when none is. *)
Definition __init__ (m V_init V_reset V_rest thr amplitude I_e noise : Q)
    (rng : option ref) (w : world) : t * world :=
  let '(r, w) :=
    match rng with
    | Some r => (r, w)
    | None => new_RandomState w
    end in
  (Build 0 0 amplitude m V_init V_reset V_rest thr I_e r noise, w).

(** [LIF.step]. *)
Definition step (self : t) (h : heap) : t * heap :=
  let self := set_V self (V self * m self + I self) in
  let '(self, h) :=
    if Qgtb (noise self) 0 then
      let '(x, g) := normal (noise self) (h (rng self)) in
      (set_V self (V self + x), heap_set h (rng self) g)
    else (self, h) in
  let self := set_V self (py_max (V_rest self) (V self)) in
  let self := set_I self (I_e self) in
  if Qgtb (V self) (thr self)
  then (set_out (set_V self (V_reset self)) (amplitude self), h)
  else (set_out self 0, h).

(** The membrane voltage before the floor: leak and input, then the noise
    draw when noise is on. *)
Definition noisy_V (self : t) (h : heap) : Q :=
  let V1 := V self * m self + I self in
  if Qgtb (noise self) 0
  then V1 + fst (normal (noise self) (h (rng self)))
  else V1.

(** The store after a step: the generator of the unit has advanced by one
    normal draw when noise is on, and nothing has changed otherwise. *)
Definition store_after (self : t) (h : heap) : heap :=
  if Qgtb (noise self) 0
  then heap_set h (rng self) (snd (normal (noise self) (h (rng self))))
  else h.

(** Two units agree on every constructor parameter but the generator. *)
Definition equal_parameters (a b : t) : Prop :=
  m a = m b /\ V_reset a = V_reset b /\ V_rest a = V_rest b /\
  thr a = thr b /\ I_e a = I_e b /\ noise a = noise b /\
  amplitude a = amplitude b.

(** The driver: before each step it writes [I], then it calls [step]. *)
Fixpoint run (ws : list write) (self : t) (h : heap) : t * heap :=
  match ws with
  | [] => (self, h)
  | w :: ws =>
      let '(self, h) := step (set_I self (write_I w (I self))) h in
      run ws self h
  end.

End WithNumpy.
End LIF.

(** ** Exceptions a step can raise *)
Inductive exn : Type :=
| IndexError
| ZeroDivisionError.

(** [l[i]] on a Python list: a negative index counts from the end, an index
    out of range raises [IndexError] (here: [None]). *)
Definition getitem {A : Type} (l : list A) (i : Z) : option A :=
  let n := Z.of_nat (length l) in
  if (i <? 0)%Z then
    if (i + n <? 0)%Z then None else nth_error l (Z.to_nat (i + n))
  else nth_error l (Z.to_nat i).

(** ** class SpikeTrain *)
Module SpikeTrain.

Record t : Type := Build {
  I : Q;
  out : Q;
  amplitude : Q;
  train : list Q;
  size : Z;
  index : Z
}.

Definition set_I (self : t) (x : Q) : t :=
  Build x (out self) (amplitude self) (train self) (size self) (index self).

Definition set_out (self : t) (x : Q) : t :=
  Build (I self) x (amplitude self) (train self) (size self) (index self).

Definition set_index (self : t) (i : Z) : t :=
  Build (I self) (out self) (amplitude self) (train self) (size self) i.

(** [SpikeTrain.__init__]: no argument is checked. *)
Definition __init__ (train : list Q) (amplitude : Q) : t :=
  Build 0 0 amplitude train (Z.of_nat (length train)) 0.

(** [SpikeTrain.step].  The state is returned with what was written before
    an exception, if one is raised. *)
Definition step (self : t) : t * option exn :=
  match getitem (train self) (index self) with
  | None => (self, Some IndexError)
  | Some x =>
      let self := set_out self (x * amplitude self) in
      if (size self =? 0)%Z then (self, Some ZeroDivisionError)
      else (set_index self ((index self + 1) mod size self)%Z, None)
  end.

(** The state of a unit as [__init__] and [step] leave it: [size] is the
    length of [train] and [index] is a position in it. *)
Definition well_formed (self : t) : Prop :=
  size self = Z.of_nat (length (train self)) /\
  (0 <= index self < size self)%Z.

(** The [k]-th value of the train replayed in a cycle from position [i],
    scaled by the amplitude. *)
Definition replay (self : t) (i k : nat) : Q :=
  nth ((i + k) mod length (train self)) (train self) 0 * amplitude self.

(** The driver: it writes [I], calls [step] and reads [out]; it stops at the
    first exception.  The result is the list of the [out] values read. *)
Fixpoint run (ws : list write) (self : t) : list Q * t * option exn :=
  match ws with
  | [] => ([], self, None)
  | w :: ws =>
      match step (set_I self (write_I w (I self))) with
      | (self, Some e) => ([], self, Some e)
      | (self, None) =>
          let '(outs, final, e) := run ws self in
          (out self :: outs, final, e)
      end
  end.

End SpikeTrain.

(** ** class PoissonGenerator *)
Module PoissonGenerator.
Section WithNumpy.
Context `{np : numpy}.

Record t : Type := Build {
  I : Q;
  out : Q;
  amplitude : Q;
  I_e : Q;
  rng : ref
}.

Definition set_I (self : t) (x : Q) : t :=
  Build x (out self) (amplitude self) (I_e self) (rng self).

Definition set_out (self : t) (x : Q) : t :=
  Build (I self) x (amplitude self) (I_e self) (rng self).

Definition set_rng (self : t) (r : ref) : t :=
  Build (I self) (out self) (amplitude self) (I_e self) r.

(** [PoissonGenerator.__init__]. *)
Definition __init__ (I_e amplitude : Q) (rng : option ref) (w : world)
    : t * world :=
  let '(r, w) :=
    match rng with
    | Some r => (r, w)
    | None => new_RandomState w
    end in
  (Build 0 0 amplitude I_e r, w).

(** The loop condition's left side, [-np.log(1 - u) / self.I]. *)
Definition interval (u I : Q) : Q := (- log (1 - u)) / I.

(** The [while] loop of [step]: each turn draws from the generator and, when
    the interval of that draw is below 1, adds 1 to [out].  [None] when the
    loop has not ended within [fuel] draws. *)
Fixpoint while_loop (fuel : nat) (self : t) (h : heap) : option (t * heap) :=
  match fuel with
  | O => None
  | S fuel =>
      let '(u, g) := rand (h (rng self)) in
      let h := heap_set h (rng self) g in
      if Qltb (interval u (I self)) 1
      then while_loop fuel (set_out self (out self + 1)) h
      else Some (self, h)
  end.

(** [PoissonGenerator.step]. *)
Definition step (fuel : nat) (self : t) (h : heap) : option (t * heap) :=
  let self := set_out self 0 in
  match (if Qgtb (I self) 0 then while_loop fuel self h else Some (self, h)) with
  | None => None
  | Some (self, h) =>
      let self := set_out self (out self * amplitude self) in
      let self := set_I self (I_e self) in
      Some (self, h)
  end.

(** The driver, as for the other units; [None] when some step has not ended
    within [fuel] draws. *)
Fixpoint run (fuel : nat) (ws : list write) (self : t) (h : heap)
    : option (list Q * t * heap) :=
  match ws with
  | [] => Some ([], self, h)
  | w :: ws =>
      match step fuel (set_I self (write_I w (I self))) h with
      | None => None
      | Some (self, h) =>
          match run fuel ws self h with
          | None => None
          | Some (outs, final, h) => Some (out self :: outs, final, h)
          end
      end
  end.

End WithNumpy.
End PoissonGenerator.

(** ** class AbstractNeuron: what the three classes share *)
Section AbstractNeuron.
Context `{np : numpy}.

Inductive Neuron : Type :=
| OfLIF (n : LIF.t)
| OfSpikeTrain (n : SpikeTrain.t)
| OfPoissonGenerator (n : PoissonGenerator.t).

(** [hasattr(self, 'rng')]: [LIF.__init__] and [PoissonGenerator.__init__]
    always assign [self.rng], [SpikeTrain.__init__] never does. *)
Definition hasattr_rng (self : Neuron) : bool :=
  match self with
  | OfLIF _ => true
  | OfSpikeTrain _ => false
  | OfPoissonGenerator _ => true
  end.

Definition set_rng (self : Neuron) (rng : ref) : Neuron :=
  match self with
  | OfLIF n => OfLIF (LIF.set_rng n rng)
  | OfSpikeTrain n => OfSpikeTrain n
  | OfPoissonGenerator n => OfPoissonGenerator (PoissonGenerator.set_rng n rng)
  end.

(** [AbstractNeuron.update_rng]. *)
Definition update_rng (self : Neuron) (rng : ref) : Neuron :=
  if hasattr_rng self then set_rng self rng else self.

(** The random source a unit holds, if it has the attribute. *)
Definition rng_of (self : Neuron) : option ref :=
  match self with
  | OfLIF n => Some (LIF.rng n)
  | OfSpikeTrain _ => None
  | OfPoissonGenerator n => Some (PoissonGenerator.rng n)
  end.

End AbstractNeuron.

(** ** When the Poisson loop ends *)
Section Draws.
Context `{np : numpy}.

(** The generator state reached from [g] by [n] calls of [rand]. *)
Fixpoint after_draws (n : nat) (g : RandomState) : RandomState :=
  match n with
  | O => g
  | S n => after_draws n (snd (rand g))
  end.

(** [ends_after n I g]: drawing from [g], the first [n] intervals are below 1
    and the next one is not, so the loop of [PoissonGenerator.step] makes
    [n] additions and stops at the draw after them. *)
Fixpoint ends_after (n : nat) (I : Q) (g : RandomState) : bool :=
  let '(u, g) := rand g in
  match n with
  | O => negb (Qltb (PoissonGenerator.interval u I) 1)
  | S n => Qltb (PoissonGenerator.interval u I) 1 && ends_after n I g
  end.

(** [n] times [x += 1]. *)
Definition add_ones (n : nat) (x : Q) : Q := Nat.iter n (fun o => o + 1) x.

End Draws.

(** ** The counting process as the specification words it

    Not taken from the source: section 4.4 of the specification describes a
    running time [t] that accumulates the intervals, an event counted each
    time [t] is still below 1, and [out = count * amplitude].  It is kept
    apart from [PoissonGenerator.step] to be compared with it. *)
Module PoissonProcessSpec.
Section WithNumpy.
Context `{np : numpy}.

Fixpoint count_events (fuel : nat) (I t count : Q) (r : ref) (h : heap)
    : option (Q * heap) :=
  match fuel with
  | O => None
  | S fuel =>
      let '(u, g) := rand (h r) in
      let h := heap_set h r g in
      let t := t + PoissonGenerator.interval u I in
      if Qltb t 1 then count_events fuel I t (count + 1) r h
      else Some (count, h)
  end.

Definition step (fuel : nat) (self : PoissonGenerator.t) (h : heap)
    : option (PoissonGenerator.t * heap) :=
  match (if Qgtb (PoissonGenerator.I self) 0
         then count_events fuel (PoissonGenerator.I self) 0 0
                (PoissonGenerator.rng self) h
         else Some (0, h)) with
  | None => None
  | Some (count, h) =>
      let self :=
        PoissonGenerator.set_out self (count * PoissonGenerator.amplitude self) in
      Some (PoissonGenerator.set_I self (PoissonGenerator.I_e self), h)
  end.

End WithNumpy.
End PoissonProcessSpec.

(** ** A replayed generator, for examples

    The generator state is a tape of draws made in advance: [rand] hands out
    the next entry, [normal] the next entry times the scale; an exhausted
    tape yields 0.  [log_pade] is the first Pade approximant [2(x-1)/(x+1)]
    of the logarithm; it stands in for [np.log] where an example needs
    numbers. *)
Definition tape_rand (g : list Q) : Q * list Q :=
  match g with
  | [] => (0, [])
  | u :: g => (u, g)
  end.

Definition tape_normal (scale : Q) (g : list Q) : Q * list Q :=
  match g with
  | [] => (0, [])
  | z :: g => (scale * z, g)
  end.

Definition log_pade (x : Q) : Q := 2 * (x - 1) / (x + 1).

Definition np_tape : numpy :=
  {| RandomState := list Q;
     rand := tape_rand;
     normal := tape_normal;
     log := log_pade |}.

(** A store in which every generator replays [tape]. *)
Definition tapes (tape : list Q) : @heap np_tape := fun _ => tape.

(** The world before any unit is built: no draw on any tape. *)
Definition world0 : @world np_tape := @World np_tape (tapes []) 1%positive.

(** [LIF(m=1, V_reset=-1)]: the reset voltage lies below the rest voltage 0. *)
Definition lif_low_reset : LIF.t :=
  fst (@LIF.__init__ np_tape 1 0 (-1) 0 1 1 0 0 None world0).

(** [LIF(m=9/10, noise=1/2)] on a generator of its own. *)
Definition lif_noisy : LIF.t :=
  fst (@LIF.__init__ np_tape (9 # 10) 0 0 0 1 1 0 (1 # 2) None world0).

(** [LIF(m=9/10)] with all defaults, on a generator of its own. *)
Definition lif_leaky : LIF.t :=
  fst (@LIF.__init__ np_tape (9 # 10) 0 0 0 1 1 0 0 None world0).

(** [LIF(m=1, rng=r)] with all other defaults. *)
Definition lif_plain (r : ref) : LIF.t :=
  fst (@LIF.__init__ np_tape 1 0 0 0 1 1 0 0 (Some r) world0).

(** [SpikeTrain([0, 1, 0, 2], amplitude=1)]. *)
Definition train_0102 : SpikeTrain.t := SpikeTrain.__init__ [0; 1; 0; 2] 1.

(** [PoissonGenerator()] with all defaults, on a generator of its own. *)
Definition poisson_default : PoissonGenerator.t :=
  fst (@PoissonGenerator.__init__ np_tape 0 1 None world0).

(** ** Draws over several steps *)
Section MoreDraws.
Context `{np : numpy}.

(** The generator state reached from [g] by [n] calls of [normal] with the
    same scale. *)
Fixpoint after_normals (n : nat) (scale : Q) (g : RandomState) : RandomState :=
  match n with
  | O => g
  | S n => after_normals n scale (snd (normal scale g))
  end.

(** Every draw that [g] will ever hand out has an interval below 1 at
    rate [I]. *)
Definition always_short (I : Q) (g : RandomState) : Prop :=
  forall n : nat,
    Qltb (PoissonGenerator.interval (fst (rand (after_draws n g))) I) 1 = true.

End MoreDraws.

(** [LIF(m=9/10, noise=1/2, rng=r)]. *)
Definition lif_noisy_on (r : ref) : LIF.t :=
  fst (@LIF.__init__ np_tape (9 # 10) 0 0 0 1 1 0 (1 # 2) (Some r) world0).

(** * Properties *)

(** ** Comparisons and [max] *)

Lemma Qgtb_true_iff (a b : Q) : Qgtb a b = true <-> b < a.
Proof.
  unfold Qgtb. rewrite negb_true_iff, <- not_true_iff_false, Qle_bool_iff.
  split; [apply Qnot_le_lt | apply Qlt_not_le].
Qed.

Lemma Qgtb_false_iff (a b : Q) : Qgtb a b = false <-> a <= b.
Proof.
  unfold Qgtb. rewrite negb_false_iff. apply Qle_bool_iff.
Qed.

Lemma Qgtb_cases (a b : Q) :
  (Qgtb a b = true /\ b < a) \/ (Qgtb a b = false /\ a <= b).
Proof.
  destruct (Qgtb a b) eqn:E.
  - left. split; [reflexivity | now apply Qgtb_true_iff].
  - right. split; [reflexivity | now apply Qgtb_false_iff].
Qed.

Lemma py_max_is_max (a b : Q) :
  a <= py_max a b /\ b <= py_max a b /\ (py_max a b = a \/ py_max a b = b).
Proof.
  unfold py_max. destruct (Qgtb_cases b a) as [[-> H] | [-> H]].
  - repeat split; [now apply Qlt_le_weak | apply Qle_refl | now right].
  - repeat split; [apply Qle_refl | exact H | now left].
Qed.

(** ** The store *)

Lemma heap_set_same `{numpy} (h : heap) (r : ref) (g : RandomState) :
  heap_set h r g r = g.
Proof. unfold heap_set. now rewrite Pos.eqb_refl. Qed.

Lemma heap_set_other `{numpy} (h : heap) (r r' : ref) (g : RandomState) :
  r' <> r -> heap_set h r g r' = h r'.
Proof.
  intros Hne. unfold heap_set.
  destruct (Pos.eqb_spec r' r) as [E | _]; [contradiction | reflexivity].
Qed.

(** ** LIF *)
Module LIFFacts.
Import LIF.
Section WithNumpy.
Context `{np : numpy}.

(** One closed form for [step], from which the properties below follow. *)
Lemma step_eq (self : t) (h : heap) :
  step self h =
  (let V3 := py_max (V_rest self) (noisy_V self h) in
   if Qgtb V3 (thr self)
   then Build (I_e self) (amplitude self) (amplitude self) (m self)
          (V_reset self) (V_reset self) (V_rest self) (thr self) (I_e self)
          (rng self) (noise self)
   else Build (I_e self) 0 (amplitude self) (m self)
          V3 (V_reset self) (V_rest self) (thr self) (I_e self)
          (rng self) (noise self),
   store_after self h).
Proof.
  unfold step, noisy_V, store_after. cbn.
  destruct (Qgtb (noise self) 0); cbn.
  - destruct (normal (noise self) (h (rng self))) as [x g]; cbn.
    destruct (Qgtb _ (thr self)); reflexivity.
  - destruct (Qgtb _ (thr self)); reflexivity.
Qed.

(** C2. One [step] of a LIF neuron, from any state: [V] becomes [V*m + I];
    when [noise > 0] one normal draw of scale [noise] from the unit's
    generator is added (and that generator advances), otherwise the store is
    untouched; [V] is floored by [max(V_rest, V)]; [I] becomes [I_e]; then,
    if the floored [V] exceeds [thr], [V] becomes [V_reset] and [out] becomes
    [amplitude], otherwise [V] stays the floored value and [out] becomes 0. *)
Theorem step_transition (self : t) (h : heap) :
  let V1 := V self * m self + I self in
  let draw := normal (noise self) (h (rng self)) in
  let V2 := noisy_V self h in
  let V3 := py_max (V_rest self) V2 in
  let self' := fst (step self h) in
  let h' := snd (step self h) in
  (0 < noise self -> V2 = V1 + fst draw /\ h' = heap_set h (rng self) (snd draw)) /\
  (noise self <= 0 -> V2 = V1 /\ h' = h) /\
  (V_rest self <= V3 /\ V2 <= V3 /\ (V3 = V_rest self \/ V3 = V2)) /\
  I self' = I_e self /\
  (thr self < V3 -> V self' = V_reset self /\ out self' = amplitude self) /\
  (V3 <= thr self -> V self' = V3 /\ out self' = 0).
Proof.
  cbv zeta. rewrite step_eq. cbv zeta. cbn [fst snd].
  unfold noisy_V, store_after.
  split; [| split; [| split; [| split; [| split]]]].
  - intros Hon. apply Qgtb_true_iff in Hon. rewrite Hon. now split.
  - intros Hoff. apply Qgtb_false_iff in Hoff. rewrite Hoff. now split.
  - apply py_max_is_max.
  - destruct (Qgtb _ (thr self)); reflexivity.
  - intros Hspike. apply Qgtb_true_iff in Hspike. rewrite Hspike. now split.
  - intros Hquiet. apply Qgtb_false_iff in Hquiet. rewrite Hquiet. now split.
Qed.

Lemma step_parameters (self : t) (h : heap) :
  equal_parameters self (fst (step self h)) /\ rng (fst (step self h)) = rng self.
Proof.
  rewrite step_eq. cbv zeta. cbn [fst].
  destruct (Qgtb _ (thr self)); cbn; unfold equal_parameters; cbn; tauto.
Qed.

Lemma run_parameters (ws : list write) (self : t) (h : heap) :
  equal_parameters self (fst (run ws self h)) /\
  rng (fst (run ws self h)) = rng self.
Proof.
  revert self h.
  induction ws as [| w ws IH]; intros self h; cbn [run].
  - unfold equal_parameters. tauto.
  - destruct (step (set_I self (write_I w (I self))) h) as [s1 h1] eqn:E.
    destruct (step_parameters (set_I self (write_I w (I self))) h) as [P R].
    rewrite E in P, R. cbn [fst] in P, R.
    destruct (IH s1 h1) as [P' R'].
    unfold equal_parameters in *. cbn in P, R.
    destruct P as (P1 & P2 & P3 & P4 & P5 & P6 & P7).
    destruct P' as (Q1 & Q2 & Q3 & Q4 & Q5 & Q6 & Q7).
    repeat split; congruence.
Qed.

(** C10. [step] writes [V], [I] and [out] only: the parameters [m],
    [V_reset], [V_rest], [thr], [I_e], [noise], [amplitude] and the reference
    to the attached generator are the same after one step, and after every
    run of the driver. *)
Theorem step_frame (self : t) (h : heap) :
  (equal_parameters self (fst (step self h)) /\
   rng (fst (step self h)) = rng self) /\
  (forall ws : list write,
     equal_parameters self (fst (run ws self h)) /\
     rng (fst (run ws self h)) = rng self).
Proof.
  split; [apply step_parameters | intros ws; apply run_parameters].
Qed.

Lemma step_floor (self : t) (h : heap) :
  (V_rest self <= V_reset self -> V_rest self <= V (fst (step self h))) /\
  (V_rest self <= V (fst (step self h)) \/
   (V (fst (step self h)) = V_reset self /\
    out (fst (step self h)) = amplitude self)).
Proof.
  rewrite step_eq. cbv zeta. cbn [fst].
  destruct (Qgtb _ (thr self)); cbn.
  - split; [tauto | right; split; reflexivity].
  - split; [intros _ | left]; apply py_max_is_max.
Qed.

(** C3, as the code has it.  After every step of every run of the driver,
    whatever the writes to [I] and the noise draws: if [V_reset] is not below
    [V_rest] then [V >= V_rest]; and in any case either [V >= V_rest], or
    this step has spiked and [V] is [V_reset]. *)
Theorem floor_after_every_step (ws : list write) (self : t) (h : heap) :
  ws <> [] ->
  let self' := fst (run ws self h) in
  (V_rest self <= V_reset self -> V_rest self' <= V self') /\
  (V_rest self' <= V self' \/
   (V self' = V_reset self' /\ out self' = amplitude self')).
Proof.
  revert self h.
  induction ws as [| w ws IH]; intros self h Hne; [contradiction |].
  cbn [run].
  destruct (step (set_I self (write_I w (I self))) h) as [s1 h1] eqn:E.
  pose proof (step_floor (set_I self (write_I w (I self))) h) as F.
  pose proof (step_parameters (set_I self (write_I w (I self))) h) as [P _].
  rewrite E in F, P. cbn [fst] in F, P. unfold equal_parameters in P. cbn in F, P.
  destruct P as (_ & Pr & Ps & _ & _ & _ & Pa).
  destruct ws as [| w' ws'].
  - cbn. rewrite <- Pr, <- Ps, <- Pa. exact F.
  - cbv zeta. rewrite Ps, Pr.
    apply (IH s1 h1). discriminate.
Qed.

(** C9. A LIF neuron with [noise <= 0] steps without touching any generator:
    two units that agree on the parameters and on [V] and [I] agree on [V],
    [I] and [out] after the step, whatever generators they hold and whatever
    the store contains, and each store is left as it was. *)
Theorem step_deterministic_without_noise (a b : t) (ha hb : heap) :
  noise a <= 0 ->
  equal_parameters a b ->
  V a = V b ->
  I a = I b ->
  (V (fst (step a ha)) = V (fst (step b hb)) /\
   I (fst (step a ha)) = I (fst (step b hb)) /\
   out (fst (step a ha)) = out (fst (step b hb))) /\
  snd (step a ha) = ha /\ snd (step b hb) = hb.
Proof.
  intros Hn (Em & Ereset & Erest & Ethr & Ee & Enoise & Eamp) EV EI.
  assert (Hb : Qgtb (noise b) 0 = false)
    by (rewrite <- Enoise; now apply Qgtb_false_iff).
  apply Qgtb_false_iff in Hn.
  assert (EV2 : noisy_V a ha = noisy_V b hb).
  { unfold noisy_V. rewrite Hn, Hb. cbv zeta. congruence. }
  rewrite !step_eq. cbv zeta. cbn [fst snd]. unfold store_after.
  rewrite Hn, Hb, EV2, Erest, Ethr, Ereset, Ee, Eamp.
  destruct (Qgtb _ (thr b)); cbn; repeat split; reflexivity.
Qed.

End WithNumpy.

(** The noise channel in use: one step of [LIF(m=9/10, noise=1/2)] with
    [I = 1] on a tape whose next entry is 3 adds the draw [1/2 * 3] to [V],
    spikes, and leaves the tape one entry shorter. *)
Example step_noisy :
  let r := @step np_tape (set_I lif_noisy 1) (tapes [3; 4]) in
  noisy_V (np := np_tape) (set_I lif_noisy 1) (tapes [3; 4]) == 5 # 2 /\
  V (fst r) = 0 /\ out (fst r) = 1 /\ I (fst r) = 0 /\
  snd r (rng lif_noisy) = [4].
Proof. vm_compute. repeat split. Qed.

(** The two LIF scenarios of the specification's section 8: no input and no
    noise keeps [out = 0] and [V] at rest; one injection of 3/2 makes the
    next step spike and the one after it silent. *)
Example run_silent :
  let s := fst (@run np_tape [Leave; Leave; Leave] lif_leaky (tapes [])) in
  out s = 0 /\ V s = V_rest s.
Proof. vm_compute. split; reflexivity. Qed.

Example run_spike_once :
  let s1 := fst (@run np_tape [Accumulate (3 # 2)] (lif_plain 1%positive) (tapes [])) in
  let s2 := fst (@run np_tape [Accumulate (3 # 2); Leave] (lif_plain 1%positive) (tapes [])) in
  out s1 = amplitude s1 /\ V s1 = V_reset s1 /\ out s2 = 0.
Proof. vm_compute. repeat split. Qed.

(** C3 as stated fails: [LIF(m=1, V_reset=-1)] with 2 added to [I] spikes in
    its first step and is reset to [V = -1], below [V_rest = 0]. *)
Lemma floor_broken_by_reset :
  ~ (V_rest (fst (@run np_tape [Accumulate 2] lif_low_reset (tapes [])))
     <= V (fst (@run np_tape [Accumulate 2] lif_low_reset (tapes [])))).
Proof. vm_compute. intros H. apply H. reflexivity. Qed.

Lemma floor_after_every_step_witness :
  V_rest (fst (@run np_tape [Accumulate 2; Leave] lif_noisy (tapes [3; -5])))
  <= V (fst (@run np_tape [Accumulate 2; Leave] lif_noisy (tapes [3; -5]))).
Proof.
  apply (@floor_after_every_step np_tape [Accumulate 2; Leave] lif_noisy
           (tapes [3; -5])).
  - discriminate.
  - vm_compute. discriminate.
Defined.

Lemma step_deterministic_without_noise_witness :
  V (fst (@step np_tape (lif_plain 1%positive) (tapes [3])))
  = V (fst (@step np_tape (lif_plain 2%positive) (tapes [-5]))).
Proof.
  apply (@step_deterministic_without_noise np_tape
           (lif_plain 1%positive) (lif_plain 2%positive) (tapes [3]) (tapes [-5])).
  - vm_compute. discriminate.
  - vm_compute. repeat split.
  - reflexivity.
  - reflexivity.
Defined.

End LIFFacts.

(** ** SpikeTrain *)
Module SpikeTrainFacts.
Import SpikeTrain.

Lemma getitem_in_range {A : Type} (l : list A) (i : Z) :
  (0 <= i)%Z -> getitem l i = nth_error l (Z.to_nat i).
Proof.
  intros Hi. unfold getitem.
  destruct (Z.ltb_spec i 0) as [Hneg | _]; [lia | reflexivity].
Qed.

Lemma getitem_nil {A : Type} (i : Z) : getitem (@nil A) i = None.
Proof.
  unfold getitem. cbn [length Z.of_nat].
  destruct (Z.ltb_spec i 0) as [Hneg | Hpos].
  - destruct (Z.ltb_spec (i + 0) 0) as [_ | Hge]; [reflexivity | lia].
  - now destruct (Z.to_nat i).
Qed.

(** A step of a well-formed unit raises nothing: it reads [train[index]],
    writes [out] and moves [index] one place on, cyclically. *)
Lemma step_well_formed (self : t) :
  well_formed self ->
  step self =
  (Build (I self) (replay self (Z.to_nat (index self)) 0) (amplitude self)
     (train self) (size self)
     (Z.of_nat ((Z.to_nat (index self) + 1) mod length (train self))),
   None).
Proof.
  intros [Hsize [Hlo Hhi]]. unfold step, replay.
  rewrite getitem_in_range by exact Hlo.
  assert (Hlen : (Z.to_nat (index self) < length (train self))%nat) by lia.
  rewrite Nat.add_0_r, Nat.mod_small by exact Hlen.
  rewrite (nth_error_nth' (train self) 0 Hlen). cbn.
  destruct (Z.eqb_spec (size self) 0) as [Hz | Hnz]; [lia |].
  unfold set_index, set_out. cbn [I out amplitude train size index].
  do 2 f_equal.
  rewrite Nat2Z.inj_mod, Nat2Z.inj_add, Z2Nat.id, <- Hsize by exact Hlo.
  reflexivity.
Qed.

Lemma step_keeps_well_formed (self : t) :
  well_formed self -> well_formed (fst (step self)).
Proof.
  intros Hwf. rewrite step_well_formed by exact Hwf.
  destruct Hwf as [Hsize [Hlo Hhi]]. unfold well_formed. cbn.
  split; [exact Hsize |].
  assert (Hpos : (0 < length (train self))%nat) by lia.
  pose proof (Nat.mod_upper_bound (Z.to_nat (index self) + 1)
                (length (train self))) as Hb.
  lia.
Qed.

Lemma init_well_formed (train : list Q) (amplitude : Q) :
  train <> [] -> well_formed (__init__ train amplitude).
Proof.
  intros Hne. unfold well_formed, __init__. cbn.
  destruct train as [| x l]; [contradiction | cbn [length]; lia].
Qed.

(** A run of a well-formed unit: no exception, the outputs are the train
    replayed from the current position, whatever is written to [I]. *)
Lemma run_well_formed (ws : list write) (self : t) :
  well_formed self ->
  let i := Z.to_nat (index self) in
  fst (fst (run ws self)) = map (replay self i) (seq 0 (length ws)) /\
  snd (run ws self) = None /\
  well_formed (snd (fst (run ws self))) /\
  index (snd (fst (run ws self)))
  = Z.of_nat ((i + length ws) mod length (train self)) /\
  train (snd (fst (run ws self))) = train self /\
  amplitude (snd (fst (run ws self))) = amplitude self.
Proof.
  revert self.
  induction ws as [| w ws IH]; intros self Hwf; cbv zeta.
  - cbn [run length seq map fst snd].
    split; [reflexivity | split; [reflexivity | split; [exact Hwf |]]].
    split; [| split; reflexivity].
    destruct Hwf as [Hsize [Hlo Hhi]].
    rewrite Nat.add_0_r, Nat.mod_small by lia. lia.
  - cbn [run length].
    assert (Hwf1 : well_formed (set_I self (write_I w (I self)))) by exact Hwf.
    pose proof (step_keeps_well_formed _ Hwf1) as Hwf2.
    rewrite (step_well_formed _ Hwf1) in *. cbn [fst] in Hwf2. cbn [set_I train index amplitude size I] in *.
    set (s1 := Build _ _ _ _ _ _) in *.
    specialize (IH s1 Hwf2). cbv zeta in IH.
    destruct (run ws s1) as [[outs final] e].
    cbn [fst snd] in *.
    destruct IH as (Houts & He & Hfin & Hidx & Htr & Hamp).
    assert (Hpos : (0 < length (train self))%nat)
      by (destruct Hwf as [Hsize [Hlo Hhi]]; lia).
    assert (Hn : length (train self) <> 0%nat) by lia.
    unfold s1 in Houts, Hidx, Htr, Hamp. cbn [index train amplitude out] in *.
    rewrite Nat2Z.id in Houts, Hidx.
    split; [| split; [exact He | split; [exact Hfin | split; [| split; assumption]]]].
    + cbn [seq map]. f_equal.
      rewrite Houts, <- seq_shift, map_map.
      apply map_ext. intros k. unfold replay. cbn [train amplitude].
      rewrite Nat.Div0.add_mod_idemp_l.
      do 2 f_equal. f_equal. lia.
    + rewrite Hidx, Nat.Div0.add_mod_idemp_l. do 2 f_equal. lia.
Qed.

(** [step] never writes [I], whether it raises or not. *)
Lemma step_leaves_I (self : t) : I (fst (step self)) = I self.
Proof.
  unfold step. destruct (getitem (train self) (index self)) as [x |]; cbn.
  - destruct (size self =? 0)%Z; reflexivity.
  - reflexivity.
Qed.

Lemma step_empty_train (self : t) :
  train self = [] -> step self = (self, Some IndexError).
Proof.
  intros Hnil. unfold step. now rewrite Hnil, getitem_nil.
Qed.

(** C5. A unit built from a non-empty train, driven for any number of steps
    with any writes to [I]: no step raises, the [k]-th output is
    [train[k mod size] * amplitude], and after the last step [index] is the
    number of steps modulo [size], so [0 <= index < size].  For
    [train = [0, 1, 0, 2]] and [amplitude = 1] eight steps give
    [[0, 1, 0, 2, 0, 1, 0, 2]]. *)
Theorem cyclic_replay (train : list Q) (amplitude : Q) (ws : list write) :
  train <> [] ->
  let r := run ws (__init__ train amplitude) in
  (snd r = None /\
   fst (fst r)
   = map (fun k => nth (k mod length train) train 0 * amplitude)
       (seq 0 (length ws)) /\
   index (snd (fst r)) = Z.of_nat (length ws mod length train) /\
   (0 <= index (snd (fst r)) < size (snd (fst r)))%Z) /\
  (forall ws8 : list write,
     length ws8 = 8%nat ->
     fst (fst (run ws8 train_0102)) = [0; 1; 0; 2; 0; 1; 0; 2]).
Proof.
  intros Hne. cbv zeta. split.
  - destruct (run_well_formed ws (__init__ train amplitude)
                (init_well_formed train amplitude Hne))
      as (Houts & He & Hwf & Hidx & _ & _).
    split; [exact He | split; [exact Houts | split; [exact Hidx | apply Hwf]]].
  - intros ws8 Hlen.
    assert (Hwf : well_formed train_0102)
      by (apply init_well_formed; discriminate).
    destruct (run_well_formed ws8 train_0102 Hwf) as (Houts & _).
    rewrite Houts, Hlen. vm_compute. reflexivity.
Qed.

Lemma cyclic_replay_witness :
  snd (run [Assign 5; Leave; Accumulate 3; Leave; Leave]
         (__init__ [1; 0; 7 # 2] 2)) = None /\
  fst (fst (run [Assign 5; Leave; Accumulate 3; Leave; Leave]
              (__init__ [1; 0; 7 # 2] 2)))
  = map (fun k => nth (k mod 3) [1; 0; 7 # 2] 0 * 2) (seq 0 5).
Proof.
  destruct (cyclic_replay [1; 0; 7 # 2] 2
              [Assign 5; Leave; Accumulate 3; Leave; Leave])
    as [(He & Houts & _) _].
  - discriminate.
  - split; [exact He | exact Houts].
Defined.

(** C4 as stated fails: [SpikeTrain([])] is built, with [size = 0]; the
    failure comes with the first [step], an [IndexError]. *)
Lemma empty_train_is_constructed :
  size (__init__ [] 1) = 0%Z /\
  step (__init__ [] 1) = (__init__ [] 1, Some IndexError).
Proof. split; reflexivity. Qed.

(** C4, as the code has it.  [__init__] checks nothing: on an empty train it
    returns a unit with [size = 0] and [index = 0].  Every step of a unit
    whose train is empty raises [IndexError] at [train[index]], before [out]
    or [index] is written and before the modulo by [size]; so a run on the
    empty train ends at its first step with that error, and a run on a
    non-empty train raises nothing. *)
Theorem empty_train_fails_at_first_step (amplitude : Q) :
  __init__ [] amplitude = Build 0 0 amplitude [] 0 0 /\
  (forall self : t, train self = [] -> step self = (self, Some IndexError)) /\
  (forall (w : write) (ws : list write),
     run (w :: ws) (__init__ [] amplitude)
     = ([], set_I (__init__ [] amplitude) (write_I w 0), Some IndexError)) /\
  (forall (train : list Q) (ws : list write),
     train <> [] -> snd (run ws (__init__ train amplitude)) = None).
Proof.
  split; [reflexivity |].
  split; [exact step_empty_train |].
  split.
  - intros w ws. cbn [run]. now rewrite step_empty_train.
  - intros train ws Hne.
    apply (run_well_formed ws (__init__ train amplitude)
             (init_well_formed train amplitude Hne)).
Qed.

End SpikeTrainFacts.

(** ** PoissonGenerator *)
Module PoissonGeneratorFacts.
Import PoissonGenerator.
Section WithNumpy.
Context `{np : numpy}.

Lemma add_ones_succ (n : nat) (x : Q) : add_ones n (x + 1) = add_ones (S n) x.
Proof.
  unfold add_ones. symmetry.
  exact (Nat.iter_succ_r n Q (fun o : Q => o + 1) x).
Qed.

(** The loop ends as soon as a draw has an interval of 1 or more; until then
    every draw adds 1 to [out].  Only the unit's generator is advanced. *)
Lemma while_loop_ends (n fuel : nat) (self : t) (h : heap) :
  ends_after n (I self) (h (rng self)) = true ->
  (n < fuel)%nat ->
  exists h' : heap,
    while_loop fuel self h = Some (set_out self (add_ones n (out self)), h') /\
    h' (rng self) = after_draws (S n) (h (rng self)) /\
    (forall r : ref, r <> rng self -> h' r = h r).
Proof.
  revert fuel self h.
  induction n as [| n IH]; intros fuel self h Hend Hfuel;
    (destruct fuel as [| fuel]; [lia |]);
    cbn [ends_after while_loop after_draws] in *;
    destruct (rand (h (rng self))) as [u g]; cbn [snd].
  - apply negb_true_iff in Hend. rewrite Hend.
    exists (heap_set h (rng self) g).
    split; [destruct self; reflexivity |].
    split; [apply heap_set_same | intros r Hr; now apply heap_set_other].
  - apply andb_true_iff in Hend. destruct Hend as [Hlt Hend]. rewrite Hlt.
    destruct (IH fuel (set_out self (out self + 1)) (heap_set h (rng self) g))
      as (h' & Hloop & Hsame & Hother).
    + cbn [I rng set_out]. now rewrite heap_set_same.
    + lia.
    + exists h'. cbn [I rng out set_out] in *.
      rewrite heap_set_same in Hsame. rewrite add_ones_succ in Hloop.
      split; [exact Hloop |].
      split; [exact Hsame |].
      intros r Hr. rewrite (Hother r Hr). now apply heap_set_other.
Qed.

(** [step] with a rate that is not positive: no draw, [out] is [0 *
    amplitude], [I] is back at [I_e], whatever the fuel. *)
Lemma step_not_positive (fuel : nat) (self : t) (h : heap) :
  I self <= 0 ->
  step fuel self h
  = Some (Build (I_e self) (0 * amplitude self) (amplitude self) (I_e self)
            (rng self), h).
Proof.
  intros Hle. unfold step. cbn [set_out I].
  apply Qgtb_false_iff in Hle. now rewrite Hle.
Qed.

(** [step] with a positive rate, when the loop ends after [n] additions. *)
Lemma step_positive (n fuel : nat) (self : t) (h : heap) :
  0 < I self ->
  ends_after n (I self) (h (rng self)) = true ->
  (n < fuel)%nat ->
  exists h' : heap,
    step fuel self h
    = Some (Build (I_e self) (add_ones n 0 * amplitude self) (amplitude self)
              (I_e self) (rng self), h') /\
    h' (rng self) = after_draws (S n) (h (rng self)) /\
    (forall r : ref, r <> rng self -> h' r = h r).
Proof.
  intros Hpos Hend Hfuel. unfold step.
  apply Qgtb_true_iff in Hpos. cbn [set_out I]. rewrite Hpos.
  destruct (while_loop_ends n fuel (set_out self 0) h Hend Hfuel)
    as (h' & Hloop & Hsame & Hother).
  exists h'. rewrite Hloop. cbn.
  split; [reflexivity | split; assumption].
Qed.

(** Whenever [step] returns, [I] is [I_e]. *)
Lemma step_resets_I (fuel : nat) (self self' : t) (h h' : heap) :
  step fuel self h = Some (self', h') -> I self' = I_e self.
Proof.
  unfold step.
  assert (Hloop : forall f s k s' k',
             while_loop f s k = Some (s', k') -> I_e s' = I_e s).
  { induction f as [| f IH]; intros s k s' k' E; cbn [while_loop] in E;
      [discriminate |].
    destruct (rand (k (rng s))) as [u g].
    destruct (Qltb (interval u (I s)) 1).
    - apply IH in E. exact E.
    - now inversion E. }
  destruct (Qgtb (I (set_out self 0)) 0).
  - destruct (while_loop fuel (set_out self 0) h) as [[s k] |] eqn:E;
      [| discriminate].
    intros Heq. inversion Heq. cbn. now apply Hloop in E.
  - intros Heq. inversion Heq. reflexivity.
Qed.

Lemma run_zero_rate (fuel n : nat) (self : t) (h : heap) :
  exists (outs : list Q) (final : t),
    run fuel (repeat (Assign 0) n) self h = Some (outs, final, h) /\
    length outs = n /\
    Forall (fun o => o == 0) outs.
Proof.
  revert self.
  induction n as [| n IH]; intros self; cbn [repeat run].
  - exists [], self. repeat split. constructor.
  - cbn [write_I]. rewrite step_not_positive by apply Qle_refl.
    destruct (IH (Build (I_e (set_I self 0)) (0 * amplitude (set_I self 0))
                    (amplitude (set_I self 0)) (I_e (set_I self 0))
                    (rng (set_I self 0))))
      as (outs & final & Hrun & Hlen & Hall).
    rewrite Hrun. eexists _, final.
    split; [reflexivity |].
    split; [cbn [length]; now rewrite Hlen |].
    constructor; [cbn [out]; apply Qmult_0_l | exact Hall].
Qed.

(** C7. A step that starts with [I <= 0] makes no draw, emits [out == 0]
    and leaves [I = I_e], however little fuel it is given; so when the
    driver assigns [I = 0] before every step, every step returns and every
    output is 0, and the store is never touched. *)
Theorem zero_rate_is_silent (fuel : nat) (self : t) (h : heap) :
  I self <= 0 ->
  (exists self' : t,
     step fuel self h = Some (self', h) /\
     out self' == 0 /\ I self' = I_e self) /\
  (forall n : nat,
     exists (outs : list Q) (final : t),
       run fuel (repeat (Assign 0) n) self h = Some (outs, final, h) /\
       length outs = n /\
       Forall (fun o => o == 0) outs).
Proof.
  intros Hle. split.
  - eexists. split; [now apply step_not_positive |].
    split; [cbn [out]; apply Qmult_0_l | reflexivity].
  - intros n. apply run_zero_rate.
Qed.

(** C1 is not what the code does.  [step] tests the interval of each draw
    against 1 by itself and keeps no running time.  With a positive rate and
    three draws whose intervals are [e1 < 1], [e2 < 1] and [e3 >= 1], where
    [e1 + e2 >= 1], the code counts two events, while the process the
    specification describes (the running time passes 1 at the second draw)
    counts one; the two outputs differ unless the amplitude is 0. *)
Theorem step_counts_each_interval_alone (fuel : nat) (self : t) (h : heap)
    (u1 u2 u3 : Q) (g1 g2 g3 : RandomState) :
  0 < I self ->
  rand (h (rng self)) = (u1, g1) ->
  rand g1 = (u2, g2) ->
  rand g2 = (u3, g3) ->
  interval u1 (I self) < 1 ->
  interval u2 (I self) < 1 ->
  1 <= interval u1 (I self) + interval u2 (I self) ->
  1 <= interval u3 (I self) ->
  (3 <= fuel)%nat ->
  (exists (self' : t) (h' : heap),
     step fuel self h = Some (self', h') /\
     out self' = (0 + 1 + 1) * amplitude self) /\
  (exists (self' : t) (h' : heap),
     PoissonProcessSpec.step fuel self h = Some (self', h') /\
     out self' = (0 + 1) * amplitude self) /\
  (~ amplitude self == 0 ->
   ~ (0 + 1 + 1) * amplitude self == (0 + 1) * amplitude self).
Proof.
  intros Hpos E1 E2 E3 L1 L2 L12 L3 Hfuel.
  split; [| split].
  - destruct (step_positive 2 fuel self h Hpos) as (h' & Hstep & _).
    + cbn [ends_after]. rewrite E1, E2, E3. unfold Qltb.
      apply Qgtb_true_iff in L1, L2. apply Qgtb_false_iff in L3.
      now rewrite L1, L2, L3.
    + lia.
    + eexists _, h'. split; [exact Hstep | reflexivity].
  - destruct fuel as [| [| fuel]]; [lia | lia |].
    unfold PoissonProcessSpec.step.
    apply Qgtb_true_iff in Hpos. rewrite Hpos.
    cbn [PoissonProcessSpec.count_events]. rewrite E1.
    assert (T1 : Qltb (0 + interval u1 (I self)) 1 = true)
      by (apply Qgtb_true_iff; lra).
    rewrite T1, heap_set_same, E2.
    assert (T2 : Qltb (0 + interval u1 (I self) + interval u2 (I self)) 1
                 = false)
      by (apply Qgtb_false_iff; lra).
    rewrite T2. eexists _, _. split; reflexivity.
  - intros Hamp Heq. apply Hamp. lra.
Qed.

End WithNumpy.

Lemma zero_rate_is_silent_witness :
  exists self' : t,
    @step np_tape 0 (set_I poisson_default (-1)) (tapes [1 # 2])
    = Some (self', tapes [1 # 2]) /\
    out self' == 0 /\ I self' = 0.
Proof.
  apply (@zero_rate_is_silent np_tape 0 (set_I poisson_default (-1))
           (tapes [1 # 2])).
  vm_compute. discriminate.
Defined.

(** The case of [step_counts_each_interval_alone] with [I = 1] and the draws
    1/2, 1/2, 9/10 (intervals of about 0.69, 0.69 and 2.3 with the true
    logarithm): the code emits 2. *)
Lemma step_counts_each_interval_alone_witness :
  exists (self' : t) (h' : @heap np_tape),
    @step np_tape 3 (set_I poisson_default 1) (tapes [1 # 2; 1 # 2; 9 # 10])
    = Some (self', h') /\
    out self' = (0 + 1 + 1) * amplitude (set_I poisson_default 1).
Proof.
  apply (@step_counts_each_interval_alone np_tape 3
           (set_I poisson_default 1) (tapes [1 # 2; 1 # 2; 9 # 10])
           (1 # 2) (1 # 2) (9 # 10) [1 # 2; 9 # 10] [9 # 10] []);
    try reflexivity; try (vm_compute; discriminate); lia.
Defined.

(** The same input evaluated on both sides: 2 from the code, 1 from the
    process of the specification. *)
Example step_two_where_spec_one :
  option_map (fun r => out (fst r))
    (@step np_tape 3 (set_I poisson_default 1)
       (tapes [1 # 2; 1 # 2; 9 # 10])) = Some (2 # 1) /\
  option_map (fun r => out (fst r))
    (@PoissonProcessSpec.step np_tape 3 (set_I poisson_default 1)
       (tapes [1 # 2; 1 # 2; 9 # 10])) = Some (1 # 1).
Proof. vm_compute. split; reflexivity. Qed.

End PoissonGeneratorFacts.

(** ** What the three units share *)
Module UnitFacts.

(** C8 as stated fails: a LIF neuron without noise holds a generator like
    any other LIF neuron, and [update_rng] replaces it. *)
Lemma update_rng_changes_LIF_without_noise :
  LIF.noise (lif_plain 1%positive) = 0 /\
  update_rng (OfLIF (lif_plain 1%positive)) 2%positive
  <> OfLIF (lif_plain 1%positive).
Proof. split; [reflexivity | discriminate]. Qed.

(** C8, as the code has it.  [update_rng] replaces the generator of every
    unit that has the attribute [rng], which is every LIF neuron, with or
    without noise, and every PoissonGenerator; it leaves a SpikeTrain as it
    is; and it changes no other attribute of any unit. *)
Theorem update_rng_replaces_where_present (rng : ref) :
  (forall n : LIF.t,
     update_rng (OfLIF n) rng
     = OfLIF (LIF.Build (LIF.I n) (LIF.out n) (LIF.amplitude n) (LIF.m n)
                (LIF.V n) (LIF.V_reset n) (LIF.V_rest n) (LIF.thr n)
                (LIF.I_e n) rng (LIF.noise n))) /\
  (forall n : PoissonGenerator.t,
     update_rng (OfPoissonGenerator n) rng
     = OfPoissonGenerator
         (PoissonGenerator.Build (PoissonGenerator.I n)
            (PoissonGenerator.out n) (PoissonGenerator.amplitude n)
            (PoissonGenerator.I_e n) rng)) /\
  (forall n : SpikeTrain.t, update_rng (OfSpikeTrain n) rng = OfSpikeTrain n) /\
  (forall self : Neuron,
     rng_of (update_rng self rng)
     = if hasattr_rng self then Some rng else None).
Proof.
  repeat split.
  intros [n | n | n]; reflexivity.
Qed.

(** C6 as stated fails for the SpikeTrain: its [step] leaves in [I] whatever
    was written there, 5 in one run and 7 in another. *)
Lemma SpikeTrain_step_keeps_I :
  SpikeTrain.I (fst (SpikeTrain.step (SpikeTrain.set_I train_0102 5))) = 5 /\
  SpikeTrain.I (fst (SpikeTrain.step (SpikeTrain.set_I train_0102 7))) = 7.
Proof. split; reflexivity. Qed.

(** C6, as the code has it.  Every step of a LIF neuron leaves [I = I_e].
    Every step of a PoissonGenerator that returns leaves [I = I_e], and it
    does return when the rate is not positive or when, after finitely many
    draws, an interval of 1 or more is drawn.  A step of a SpikeTrain does
    not write [I]. *)
Theorem step_resets_I_to_I_e `{np : numpy} :
  (forall (n : LIF.t) (h : heap), LIF.I (fst (LIF.step n h)) = LIF.I_e n) /\
  (forall (n : PoissonGenerator.t) (h : heap) (k fuel : nat),
     PoissonGenerator.I n <= 0 \/
     ends_after k (PoissonGenerator.I n) (h (PoissonGenerator.rng n)) = true ->
     (k < fuel)%nat ->
     exists (n' : PoissonGenerator.t) (h' : heap),
       PoissonGenerator.step fuel n h = Some (n', h') /\
       PoissonGenerator.I n' = PoissonGenerator.I_e n) /\
  (forall (n n' : PoissonGenerator.t) (h h' : heap) (fuel : nat),
     PoissonGenerator.step fuel n h = Some (n', h') ->
     PoissonGenerator.I n' = PoissonGenerator.I_e n) /\
  (forall n : SpikeTrain.t,
     SpikeTrain.I (fst (SpikeTrain.step n)) = SpikeTrain.I n).
Proof.
  split; [| split; [| split]].
  - intros n h. rewrite LIFFacts.step_eq. cbv zeta. cbn [fst].
    destruct (Qgtb _ (LIF.thr n)); reflexivity.
  - intros n h k fuel Hends Hfuel.
    destruct (Qgtb_cases (PoissonGenerator.I n) 0) as [[_ Hpos] | [_ Hle]].
    + destruct Hends as [Hle | Hends]; [lra |].
      destruct (PoissonGeneratorFacts.step_positive k fuel n h Hpos Hends Hfuel)
        as (h' & Hstep & _).
      eexists _, h'. split; [exact Hstep | reflexivity].
    + eexists _, h.
      split; [now apply PoissonGeneratorFacts.step_not_positive | reflexivity].
  - intros n n' h h' fuel. apply PoissonGeneratorFacts.step_resets_I.
  - exact SpikeTrainFacts.step_leaves_I.
Qed.

End UnitFacts.

(** * Further properties of the units *)

(** ** LIF: dynamics over runs, and the generator *)
Module LIFDynamics.
Import LIF.
Section WithNumpy.
Context `{np : numpy}.

(** A run of at least one step ends with a [step], made by a unit that has
    the parameters and the generator of the unit the run started with. *)
Lemma run_ends_with_step (ws : list write) (self : t) (h : heap) :
  ws <> [] ->
  exists (s0 : t) (h0 : heap),
    run ws self h = step s0 h0 /\ equal_parameters self s0 /\
    rng s0 = rng self.
Proof.
  revert self h.
  induction ws as [| w ws IH]; intros self h Hne; [contradiction |].
  cbn [run].
  destruct (step (set_I self (write_I w (I self))) h) as [s1 h1] eqn:E.
  destruct ws as [| w' ws'].
  - exists (set_I self (write_I w (I self))), h. cbn [run].
    split; [now rewrite E |].
    split; [unfold equal_parameters; cbn; tauto | reflexivity].
  - destruct (IH s1 h1) as (s0 & h0 & Hrun & P & R); [discriminate |].
    exists s0, h0. split; [exact Hrun |].
    destruct (LIFFacts.step_parameters (set_I self (write_I w (I self))) h)
      as [P1 R1].
    rewrite E in P1, R1. cbn [fst] in P1, R1.
    unfold equal_parameters in *. cbn in P1, R1.
    destruct P as (Q1 & Q2 & Q3 & Q4 & Q5 & Q6 & Q7).
    destruct P1 as (P1 & P2 & P3 & P4 & P5 & P6 & P7).
    repeat split; congruence.
Qed.

Lemma step_outcome (self : t) (h : heap) :
  (out (fst (step self h)) = amplitude self /\
   V (fst (step self h)) = V_reset self) \/
  (out (fst (step self h)) = 0 /\
   V_rest self <= V (fst (step self h)) /\
   V (fst (step self h)) <= thr self).
Proof.
  rewrite LIFFacts.step_eq. cbv zeta. cbn [fst].
  destruct (Qgtb_cases (py_max (V_rest self) (noisy_V self h)) (thr self))
    as [[-> _] | [-> Hle]]; cbn.
  - left. split; reflexivity.
  - right. split; [reflexivity |].
    split; [apply py_max_is_max | exact Hle].
Qed.

(** X1. After every step of every run, either the unit has just spiked
    ([out = amplitude] and [V = V_reset]) or it is silent ([out = 0]) with
    [V_rest <= V <= thr]: [out] takes no other value, and [V] is above the
    threshold only if [V_reset] is. *)
Theorem spike_or_subthreshold (ws : list write) (self : t) (h : heap) :
  ws <> [] ->
  let s := fst (run ws self h) in
  ((out s = amplitude s /\ V s = V_reset s) \/
   (out s = 0 /\ V_rest s <= V s /\ V s <= thr s)) /\
  (V_reset self <= thr self -> V s <= thr s).
Proof.
  intros Hne. cbv zeta.
  destruct (run_ends_with_step ws self h Hne) as (s0 & h0 & Hrun & P & _).
  rewrite Hrun.
  destruct (LIFFacts.step_parameters s0 h0) as [P0 _].
  unfold equal_parameters in P, P0.
  destruct P as (_ & Q2 & Q3 & Q4 & _ & _ & Q7).
  destruct P0 as (_ & P2 & P3 & P4 & _ & _ & P7).
  rewrite <- P2, <- P3, <- P4, <- P7.
  pose proof (step_outcome s0 h0) as O.
  split; [exact O |].
  intros Hreset. rewrite Q2, Q4 in Hreset.
  destruct O as [[_ HV] | (_ & _ & HV)]; [now rewrite HV | exact HV].
Qed.

(** A silent step at the floor: without noise, when leak plus input does
    not exceed [V_rest] and [V_rest] does not exceed [thr]. *)
Lemma step_at_rest (self : t) (h : heap) :
  noise self <= 0 ->
  V self * m self + I self <= V_rest self ->
  V_rest self <= thr self ->
  step self h
  = (Build (I_e self) 0 (amplitude self) (m self) (V_rest self)
       (V_reset self) (V_rest self) (thr self) (I_e self) (rng self)
       (noise self), h).
Proof.
  intros Hn Hlow Hthr. rewrite LIFFacts.step_eq. cbv zeta.
  unfold noisy_V, store_after, py_max.
  apply Qgtb_false_iff in Hn, Hlow, Hthr.
  now rewrite Hn, Hlow, Hthr.
Qed.

(** X2. Rest is absorbing.  Without noise, with [V_rest <= thr], if the
    first step floors [V] and the bias alone cannot lift [V] off the floor
    ([V_rest*m + I_e <= V_rest]), then after every further undriven step
    [V = V_rest], [out = 0] and [I = I_e], and no generator is touched. *)
Theorem rest_is_absorbing (n : nat) (self : t) (h : heap) :
  noise self <= 0 ->
  V_rest self <= thr self ->
  V self * m self + I self <= V_rest self ->
  V_rest self * m self + I_e self <= V_rest self ->
  let r := run (repeat Leave (S n)) self h in
  V (fst r) = V_rest self /\ out (fst r) = 0 /\ I (fst r) = I_e self /\
  snd r = h.
Proof.
  revert self.
  induction n as [| n IH]; intros self Hn Hthr Hlow Hbias; cbv zeta.
  - cbn [repeat run write_I].
    rewrite (step_at_rest (set_I self (I self)) h Hn Hlow Hthr). cbn.
    repeat split.
  - change (repeat Leave (S (S n))) with (Leave :: repeat Leave (S n)).
    cbn [run write_I].
    rewrite (step_at_rest (set_I self (I self)) h Hn Hlow Hthr).
    cbn [set_I I out amplitude m V V_reset V_rest thr I_e rng noise].
    apply (IH (Build (I_e self) 0 (amplitude self) (m self) (V_rest self)
                 (V_reset self) (V_rest self) (thr self) (I_e self)
                 (rng self) (noise self))); assumption.
Qed.

(** What a step reads of the store, and what it writes. *)
Lemma fst_step_ext (s : t) (h k : heap) :
  (0 < noise s -> h (rng s) = k (rng s)) ->
  fst (step s h) = fst (step s k).
Proof.
  intros Hext. rewrite !LIFFacts.step_eq. cbv zeta. cbn [fst].
  assert (E : noisy_V s h = noisy_V s k).
  { unfold noisy_V.
    destruct (Qgtb_cases (noise s) 0) as [[-> Hon] | [-> _]];
      [rewrite (Hext Hon) |]; reflexivity. }
  now rewrite E.
Qed.

Lemma snd_step_at (s : t) (h : heap) (r : ref) :
  snd (step s h) r
  = if Qgtb (noise s) 0 && Pos.eqb r (rng s)
    then snd (normal (noise s) (h (rng s)))
    else h r.
Proof.
  rewrite LIFFacts.step_eq. cbn [snd]. unfold store_after, heap_set.
  destruct (Qgtb (noise s) 0); reflexivity.
Qed.

Lemma snd_step_quiet (s : t) (h : heap) :
  noise s <= 0 -> snd (step s h) = h.
Proof.
  intros Hoff. apply Qgtb_false_iff in Hoff.
  rewrite LIFFacts.step_eq. cbn [snd]. unfold store_after. now rewrite Hoff.
Qed.

(** X3. Two units that do not both draw from one generator can be stepped
    in either order: each unit ends in the same state and every generator
    in the same state. *)
Theorem steps_commute (a b : t) (h : heap) :
  rng a <> rng b \/ noise a <= 0 \/ noise b <= 0 ->
  fst (step a h) = fst (step a (snd (step b h))) /\
  fst (step b (snd (step a h))) = fst (step b h) /\
  (forall r : ref,
     snd (step b (snd (step a h))) r = snd (step a (snd (step b h))) r).
Proof.
  intros Hsep.
  assert (Hcase : Qgtb (noise a) 0 = false \/ Qgtb (noise b) 0 = false \/
                  Pos.eqb (rng a) (rng b) = false).
  { destruct Hsep as [Hne | [Ha | Hb]].
    - right. right. now apply Pos.eqb_neq.
    - left. now apply Qgtb_false_iff.
    - right. left. now apply Qgtb_false_iff. }
  split; [| split].
  - apply fst_step_ext. intros Hon. rewrite snd_step_at.
    apply Qgtb_true_iff in Hon.
    destruct Hcase as [Ha | [Hb | Hne]]; [congruence | now rewrite Hb |].
    rewrite Hne. now rewrite andb_false_r.
  - apply fst_step_ext. intros Hon. rewrite snd_step_at.
    apply Qgtb_true_iff in Hon.
    destruct Hcase as [Ha | [Hb | Hne]]; [now rewrite Ha | congruence |].
    rewrite Pos.eqb_sym, Hne. now rewrite andb_false_r.
  - intros r. rewrite !snd_step_at.
    destruct (Qgtb (noise a) 0) eqn:Ea; destruct (Qgtb (noise b) 0) eqn:Eb;
      cbn [andb]; try reflexivity.
    destruct Hcase as [Ha | [Hb | Hne]]; try discriminate.
    rewrite (Pos.eqb_sym (rng b) (rng a)), Hne.
    destruct (Pos.eqb_spec r (rng a)) as [Era | Hra];
      destruct (Pos.eqb_spec r (rng b)) as [Erb | Hrb]; try reflexivity.
    apply Pos.eqb_neq in Hne. congruence.
Qed.


(** X5. The bias does not enter the first step.  [__init__] leaves [I] at
    the class default 0, so the first step of a new unit gives the [V] and
    [out] it would give with [I_e = 0]; [I_e] is in [I] only afterwards. *)
Theorem first_step_ignores_I_e
    (m V_init V_reset V_rest thr amplitude I_e noise : Q) (rng : option ref)
    (w : world) (h : heap) :
  let a := fst (__init__ m V_init V_reset V_rest thr amplitude I_e noise rng w) in
  let a0 := fst (__init__ m V_init V_reset V_rest thr amplitude 0 noise rng w) in
  V (fst (step a h)) = V (fst (step a0 h)) /\
  out (fst (step a h)) = out (fst (step a0 h)) /\
  snd (step a h) = snd (step a0 h) /\
  I (fst (step a h)) = I_e /\ I (fst (step a0 h)) = 0.
Proof.
  cbv zeta. unfold __init__.
  destruct rng as [r |]; cbn [fst new_RandomState];
    rewrite !LIFFacts.step_eq; cbv zeta; cbn [fst snd];
    unfold noisy_V, store_after;
    cbn [LIF.I LIF.out LIF.amplitude LIF.m LIF.V LIF.V_reset LIF.V_rest
           LIF.thr LIF.I_e LIF.rng LIF.noise];
    destruct (Qgtb _ thr); cbn; repeat split.
Qed.

(** X6. One normal draw per step, and no other.  Over a run of [n] steps a
    noisy unit advances its generator by exactly [n] normal draws of scale
    [noise] and leaves every other generator alone; a unit without noise
    leaves the whole store as it was. *)
Theorem run_draws_once_per_step (ws : list write) (self : t) (h : heap) :
  (0 < noise self ->
   snd (run ws self h) (rng self)
   = after_normals (length ws) (noise self) (h (rng self)) /\
   (forall r : ref, r <> rng self -> snd (run ws self h) r = h r)) /\
  (noise self <= 0 -> snd (run ws self h) = h).
Proof.
  revert self h.
  induction ws as [| w ws IH]; intros self h; cbn [run length after_normals].
  - split; [intros _; split |]; reflexivity.
  - set (s0 := set_I self (write_I w (I self))).
    destruct (LIFFacts.step_parameters s0 h) as [P R].
    pose proof (snd_step_at s0 h) as Hat.
    pose proof (snd_step_quiet s0 h) as Hquiet.
    destruct (step s0 h) as [s1 h1]. cbn [fst snd] in P, R, Hat, Hquiet.
    destruct P as (_ & _ & _ & _ & _ & Pn & _).
    change (noise s0) with (noise self) in *.
    change (rng s0) with (rng self) in *.
    destruct (IH s1 h1) as [IHon IHoff].
    rewrite <- Pn in IHon, IHoff. rewrite R in IHon.
    split.
    + intros Hon. destruct (IHon Hon) as [Hsame Hother].
      apply Qgtb_true_iff in Hon. rewrite Hon in Hat. cbn [andb] in Hat.
      split.
      * rewrite Hsame, Hat, Pos.eqb_refl. reflexivity.
      * intros r Hr. rewrite (Hother r Hr), Hat.
        apply Pos.eqb_neq in Hr. now rewrite Hr.
    + intros Hoff. rewrite (IHoff Hoff). exact (Hquiet Hoff).
Qed.

End WithNumpy.

Lemma spike_or_subthreshold_witness :
  V (fst (@run np_tape [Accumulate 2; Leave] lif_noisy (tapes [3; -5])))
  <= thr (fst (@run np_tape [Accumulate 2; Leave] lif_noisy (tapes [3; -5]))).
Proof.
  apply (@spike_or_subthreshold np_tape [Accumulate 2; Leave] lif_noisy
           (tapes [3; -5])).
  - discriminate.
  - vm_compute. discriminate.
Defined.

Lemma rest_is_absorbing_witness :
  V (fst (@run np_tape (repeat Leave 3) lif_leaky (tapes [])))
  = V_rest lif_leaky.
Proof.
  apply (@rest_is_absorbing np_tape 2 lif_leaky (tapes []));
    vm_compute; discriminate.
Defined.

Lemma steps_commute_witness :
  fst (@step np_tape (lif_noisy_on 1%positive)
         (heap_set (tapes [3]) 2%positive [-5]))
  = fst (@step np_tape (lif_noisy_on 1%positive)
           (snd (@step np_tape (lif_noisy_on 2%positive)
                   (heap_set (tapes [3]) 2%positive [-5])))).
Proof.
  apply (@steps_commute np_tape (lif_noisy_on 1%positive)
           (lif_noisy_on 2%positive) (heap_set (tapes [3]) 2%positive [-5])).
  left. vm_compute. discriminate.
Defined.


(** Two noisy units on one tape [3, -5, 7]: the first takes 3, the second
    takes -5, and 7 is left. *)
Example shared_tape :
  snd (@step np_tape (lif_noisy_on 1%positive)
         (snd (@step np_tape (lif_noisy_on 1%positive) (tapes [3; -5; 7]))))
    1%positive = [7].
Proof. reflexivity. Qed.

End LIFDynamics.

(** ** PoissonGenerator: the count, the draws, and the loop without end *)
Module PoissonGeneratorCounts.
Import PoissonGenerator.
Section WithNumpy.
Context `{np : numpy}.

Lemma add_ones_count (n : nat) : add_ones n 0 == inject_Z (Z.of_nat n).
Proof.
  unfold add_ones. induction n as [| n IH]; [reflexivity |].
  cbn [Nat.iter].
  apply Qeq_trans with (inject_Z (Z.of_nat n) + 1).
  - apply Qplus_comp; [exact IH | reflexivity].
  - rewrite Nat2Z.inj_succ. unfold Z.succ. rewrite inject_Z_plus.
    reflexivity.
Qed.

(** X7. With a positive rate, when the first [n] draws have intervals below
    1 and the next one has not, [step] returns with [out == n * amplitude],
    whatever [out] was before, and with [I = I_e]; it has made exactly
    [n + 1] draws on its own generator and none on any other, and
    [amplitude], [I_e] and [rng] are as before. *)
Theorem step_counts_short_draws (n fuel : nat) (self : t) (h : heap) :
  0 < I self ->
  ends_after n (I self) (h (rng self)) = true ->
  (n < fuel)%nat ->
  exists (self' : t) (h' : heap),
    step fuel self h = Some (self', h') /\
    out self' == inject_Z (Z.of_nat n) * amplitude self /\
    I self' = I_e self /\
    (amplitude self' = amplitude self /\ I_e self' = I_e self /\
     rng self' = rng self) /\
    h' (rng self) = after_draws (S n) (h (rng self)) /\
    (forall r : ref, r <> rng self -> h' r = h r).
Proof.
  intros Hpos Hend Hfuel.
  destruct (PoissonGeneratorFacts.step_positive n fuel self h Hpos Hend Hfuel)
    as (h' & Hstep & Hsame & Hother).
  eexists _, h'. split; [exact Hstep |]. cbn.
  split; [apply Qmult_comp; [apply add_ones_count | reflexivity] |].
  split; [reflexivity |].
  split; [repeat split |].
  split; assumption.
Qed.

Lemma while_loop_short (fuel : nat) (self : t) (h : heap) :
  always_short (I self) (h (rng self)) -> while_loop fuel self h = None.
Proof.
  revert self h.
  induction fuel as [| fuel IH]; intros self h Hshort; cbn [while_loop];
    [reflexivity |].
  pose proof (Hshort 0%nat) as H0. cbn [after_draws] in H0.
  destruct (rand (h (rng self))) as [u g] eqn:E. cbn [fst] in H0.
  rewrite H0. apply IH. cbn [I rng set_out]. rewrite heap_set_same.
  intros k. specialize (Hshort (S k)). cbn [after_draws] in Hshort.
  now rewrite E in Hshort.
Qed.

(** X8. The loop has no bound of its own: with a positive rate, on a
    generator all of whose draws have intervals below 1, [step] does not
    return, however many draws it is allowed. *)
Theorem step_without_end (fuel : nat) (self : t) (h : heap) :
  0 < I self ->
  always_short (I self) (h (rng self)) ->
  step fuel self h = None.
Proof.
  intros Hpos Hshort. unfold step.
  apply Qgtb_true_iff in Hpos. cbn [I set_out]. rewrite Hpos.
  now rewrite (while_loop_short fuel (set_out self 0) h Hshort).
Qed.

(** X9. A new generator is silent in its first step.  [__init__] leaves [I]
    at the class default 0, whatever [I_e] is, so the first step makes no
    draw and emits [out == 0]; only then is [I = I_e]. *)
Theorem first_step_is_silent (I_e amplitude : Q) (rng : option ref)
    (w : world) (h : heap) (fuel : nat) :
  exists self' : t,
    step fuel (fst (__init__ I_e amplitude rng w)) h = Some (self', h) /\
    out self' == 0 /\ I self' = I_e.
Proof.
  assert (H0 : I (fst (__init__ I_e amplitude rng w)) <= 0).
  { unfold __init__. destruct rng as [r |]; cbn; apply Qle_refl. }
  eexists. split; [now apply PoissonGeneratorFacts.step_not_positive |].
  split; [cbn [out]; apply Qmult_0_l |].
  unfold __init__. destruct rng as [r |]; reflexivity.
Qed.

End WithNumpy.

Lemma step_counts_short_draws_witness :
  exists (self' : t) (h' : @heap np_tape),
    @step np_tape 5 (set_I poisson_default 1) (tapes [1 # 2; 1 # 2; 9 # 10])
    = Some (self', h') /\
    out self' == inject_Z (Z.of_nat 2) * amplitude (set_I poisson_default 1).
Proof.
  destruct (@step_counts_short_draws np_tape 2 5 (set_I poisson_default 1)
              (tapes [1 # 2; 1 # 2; 9 # 10]))
    as (self' & h' & Hstep & Hout & _).
  - reflexivity.
  - reflexivity.
  - lia.
  - exists self', h'. split; assumption.
Defined.

Lemma empty_tape_stays_empty (n : nat) : @after_draws np_tape n [] = [].
Proof. induction n as [| n IH]; [reflexivity | exact IH]. Qed.

Lemma step_without_end_witness :
  @step np_tape 1000 (set_I poisson_default 1) (tapes []) = None.
Proof.
  apply (@step_without_end np_tape 1000 (set_I poisson_default 1) (tapes [])).
  - reflexivity.
  - intros n. cbn [I rng set_I]. unfold tapes.
    rewrite empty_tape_stays_empty. reflexivity.
Defined.

End PoissonGeneratorCounts.

(** ** SpikeTrain: exceptions, indices from the end, and the period *)
Module SpikeTrainEdges.
Import SpikeTrain.

(** [l[i]] raises exactly when [i] is outside [-len(l), len(l)). *)
Lemma getitem_None_iff {A : Type} (l : list A) (i : Z) :
  getitem l i = None
  <-> (i < - Z.of_nat (length l) \/ Z.of_nat (length l) <= i)%Z.
Proof.
  unfold getitem.
  destruct (Z.ltb_spec i 0) as [Hneg | Hpos].
  - destruct (Z.ltb_spec (i + Z.of_nat (length l)) 0) as [Hlow | Hin].
    + split; [intros _; lia | reflexivity].
    + rewrite nth_error_None. lia.
  - rewrite nth_error_None. lia.
Qed.

(** X10. Which exception [step] raises, and what it has written by then.
    [IndexError] exactly when [index] is outside [-len(train), len(train)),
    and then nothing is written.  [ZeroDivisionError] exactly when [index]
    is inside and [size] is 0, and then [out] has been written but not
    [index].  Otherwise nothing is raised.  Whenever [train[index]] can be
    read, [out] is that entry times [amplitude]. *)
Theorem step_raises (self : t) :
  let len := Z.of_nat (length (train self)) in
  let inside := (- len <= index self < len)%Z in
  (snd (step self) = Some IndexError <-> ~ inside) /\
  (snd (step self) = Some ZeroDivisionError <-> inside /\ size self = 0%Z) /\
  (snd (step self) = None <-> inside /\ size self <> 0%Z) /\
  (snd (step self) = Some IndexError -> fst (step self) = self) /\
  (snd (step self) = Some ZeroDivisionError ->
   index (fst (step self)) = index self) /\
  (forall x : Q,
     getitem (train self) (index self) = Some x ->
     out (fst (step self)) = x * amplitude self).
Proof.
  cbv zeta. pose proof (getitem_None_iff (train self) (index self)) as Hnone.
  unfold step.
  destruct (getitem (train self) (index self)) as [x |].
  - assert (Hin : (- Z.of_nat (length (train self)) <= index self
                   < Z.of_nat (length (train self)))%Z).
    { destruct (Z_lt_ge_dec (index self) (- Z.of_nat (length (train self))));
        [assert (Some x = None) by (apply Hnone; lia); discriminate |].
      destruct (Z_lt_ge_dec (index self) (Z.of_nat (length (train self))));
        [lia | assert (Some x = None) by (apply Hnone; lia); discriminate]. }
    cbn [size set_out].
    destruct (Z.eqb_spec (size self) 0) as [Hz | Hnz]; cbn [fst snd].
    + repeat split; try discriminate; try tauto; try congruence.
      intros y Hy. now inversion Hy.
    + repeat split; try discriminate; try tauto; try congruence.
      intros y Hy. now inversion Hy.
  - assert (Hout : ~ (- Z.of_nat (length (train self)) <= index self
                      < Z.of_nat (length (train self)))%Z).
    { destruct Hnone as [Hn _]. specialize (Hn eq_refl). lia. }
    cbn [fst snd].
    repeat split; try discriminate; try tauto; try congruence.
Qed.

(** X11. An index from the end.  When [size] is the length of the train
    and [-size <= index < 0], [step] raises nothing, emits the entry
    [train[size + index]] times [amplitude], and leaves [index] in
    [0, size): from then on the unit replays as if built by [__init__]. *)
Theorem step_from_the_end (self : t) :
  size self = Z.of_nat (length (train self)) ->
  (- size self <= index self < 0)%Z ->
  step self
  = (Build (I self)
       (nth (Z.to_nat (index self + size self)) (train self) 0
        * amplitude self)
       (amplitude self) (train self) (size self)
       ((index self + 1) mod size self)%Z, None) /\
  well_formed (fst (step self)).
Proof.
  intros Hsize [Hlo Hhi].
  assert (Hstep : step self
                  = (Build (I self)
                       (nth (Z.to_nat (index self + size self)) (train self) 0
                        * amplitude self)
                       (amplitude self) (train self) (size self)
                       ((index self + 1) mod size self)%Z, None)).
  { unfold step, getitem. rewrite <- Hsize.
    destruct (Z.ltb_spec (index self) 0) as [_ | Hge]; [| lia].
    destruct (Z.ltb_spec (index self + size self) 0) as [Hlt | _]; [lia |].
    assert (Hlen : (Z.to_nat (index self + size self)
                    < length (train self))%nat) by lia.
    rewrite (nth_error_nth' (train self) 0 Hlen). cbn [size set_out].
    destruct (Z.eqb_spec (size self) 0) as [Hz | _]; [lia | reflexivity]. }
  split; [exact Hstep |].
  rewrite Hstep. unfold well_formed. cbn.
  split; [exact Hsize |].
  apply Z.mod_pos_bound. lia.
Qed.

Lemma step_from_the_end_witness :
  well_formed (fst (step (Build 0 0 1 [0; 1; 0; 2] 4 (-1)))).
Proof.
  apply (step_from_the_end (Build 0 0 1 [0; 1; 0; 2] 4 (-1))).
  - reflexivity.
  - cbn. lia.
Defined.

(** [train[-1]] is the last entry, and the index is 0 afterwards. *)
Example step_from_minus_one :
  step (Build 0 0 1 [0; 1; 0; 2] 4 (-1))
  = (Build 0 2 1 [0; 1; 0; 2] 4 0, None).
Proof. reflexivity. Qed.

Lemma replay_shift (self : t) (i k : nat) :
  replay self i (k + length (train self)) = replay self i k.
Proof.
  unfold replay. do 2 f_equal.
  rewrite Nat.add_assoc.
  rewrite <- (Nat.mul_1_l (length (train self))) at 1.
  apply Nat.Div0.mod_add.
Qed.

(** X12. The replay has period [size].  For a unit as [__init__] and
    [step] leave it, whatever is written to [I]: the output of step
    [k + size] is the output of step [k], and after exactly [size] steps
    [index], [train], [size] and [amplitude] are what they were. *)
Theorem replay_is_periodic (ws : list write) (self : t) :
  well_formed self ->
  let r := run ws self in
  (forall k : nat,
     (k + length (train self) < length ws)%nat ->
     nth_error (fst (fst r)) (k + length (train self))
     = nth_error (fst (fst r)) k /\
     nth_error (fst (fst r)) k <> None) /\
  (length ws = length (train self) ->
   index (snd (fst r)) = index self /\
   train (snd (fst r)) = train self /\
   size (snd (fst r)) = size self /\
   amplitude (snd (fst r)) = amplitude self).
Proof.
  intros Hwf. cbv zeta.
  destruct (SpikeTrainFacts.run_well_formed ws self Hwf)
    as (Houts & _ & Hfin & Hidx & Htr & Hamp).
  split.
  - intros k Hk. rewrite Houts.
    assert (Hat : forall j : nat,
               (j < length ws)%nat ->
               nth_error (map (replay self (Z.to_nat (index self)))
                            (seq 0 (length ws))) j
               = Some (replay self (Z.to_nat (index self)) j)).
    { intros j Hj. rewrite nth_error_map.
      rewrite (nth_error_nth' (seq 0 (length ws)) 0%nat)
        by (now rewrite length_seq).
      now rewrite seq_nth. }
    rewrite !Hat by lia. rewrite replay_shift.
    split; [reflexivity | discriminate].
  - intros Hlen.
    destruct Hwf as [Hsize [Hlo Hhi]]. destruct Hfin as [Hsize' _].
    split; [| split; [exact Htr | split; [| exact Hamp]]].
    + rewrite Hidx, Hlen.
      rewrite <- (Nat.mul_1_l (length (train self))) at 1.
      rewrite Nat.Div0.mod_add, Nat.mod_small by lia. lia.
    + now rewrite Hsize', Htr, Hsize.
Qed.

Lemma replay_is_periodic_witness :
  index (snd (fst (run [Leave; Assign 3; Leave; Leave] train_0102)))
  = index train_0102.
Proof.
  apply (replay_is_periodic [Leave; Assign 3; Leave; Leave] train_0102).
  - apply SpikeTrainFacts.init_well_formed. discriminate.
  - reflexivity.
Defined.

End SpikeTrainEdges.

(** ** Generators: who holds which, and who draws from which *)
Module GeneratorFacts.

(** X13. [update_rng] keeps no history: after two calls the unit is what
    the second call alone would have made it, and a call with the generator
    the unit already holds changes nothing. *)
Theorem update_rng_last_wins (self : Neuron) (r1 r2 : ref) :
  update_rng (update_rng self r1) r2 = update_rng self r2 /\
  hasattr_rng (update_rng self r1) = hasattr_rng self /\
  (rng_of self = Some r1 -> update_rng self r1 = self).
Proof.
  destruct self as [n | n | n]; cbn.
  - split; [reflexivity | split; [reflexivity |]].
    intros E. inversion E. now destruct n.
  - split; [reflexivity | split; [reflexivity | discriminate]].
  - split; [reflexivity | split; [reflexivity |]].
    intros E. inversion E. now destruct n.
Qed.

Lemma update_rng_last_wins_witness :
  update_rng (OfLIF (lif_plain 2%positive)) 2%positive
  = OfLIF (lif_plain 2%positive).
Proof.
  apply (update_rng_last_wins (OfLIF (lif_plain 2%positive)) 2%positive
           2%positive).
  reflexivity.
Defined.

Section WithNumpy.
Context `{np : numpy}.


(** X15. After [update_rng], a PoissonGenerator draws from the generator
    it was given: a step that ends after [k] counted draws has advanced that
    generator by [k + 1] draws and no other generator at all. *)
Theorem updated_Poisson_draws_from_new (n n' : PoissonGenerator.t)
    (r' : ref) (h : heap) (k fuel : nat) :
  0 < PoissonGenerator.I n ->
  ends_after k (PoissonGenerator.I n) (h r') = true ->
  (k < fuel)%nat ->
  update_rng (OfPoissonGenerator n) r' = OfPoissonGenerator n' ->
  exists (p : PoissonGenerator.t) (h' : heap),
    PoissonGenerator.step fuel n' h = Some (p, h') /\
    h' r' = after_draws (S k) (h r') /\
    (forall r : ref, r <> r' -> h' r = h r).
Proof.
  intros Hpos Hend Hfuel E. cbn in E. inversion E as [En]. clear E.
  destruct (PoissonGeneratorFacts.step_positive k fuel
              (PoissonGenerator.set_rng n r') h Hpos Hend Hfuel)
    as (h' & Hstep & Hsame & Hother).
  eexists _, h'. split; [exact Hstep | split; assumption].
Qed.


End WithNumpy.


Lemma updated_Poisson_draws_from_new_witness :
  exists (p : PoissonGenerator.t) (h' : @heap np_tape),
    @PoissonGenerator.step np_tape 4
      (PoissonGenerator.set_rng (PoissonGenerator.set_I poisson_default 1)
         5%positive)
      (heap_set (tapes []) 5%positive [1 # 2; 9 # 10; 1 # 3])
    = Some (p, h') /\
    h' 5%positive = [1 # 3].
Proof.
  destruct (@updated_Poisson_draws_from_new np_tape
              (PoissonGenerator.set_I poisson_default 1)
              (PoissonGenerator.set_rng
                 (PoissonGenerator.set_I poisson_default 1) 5%positive)
              5%positive
              (heap_set (tapes []) 5%positive [1 # 2; 9 # 10; 1 # 3])
              1 4)
    as (p & h' & Hstep & Hsame & _).
  - reflexivity.
  - reflexivity.
  - lia.
  - reflexivity.
  - exists p, h'. split; [exact Hstep | exact Hsame].
Defined.

End GeneratorFacts.
